(** * A shallow embedding of [arguments.py] (the [Simple] command-line
    token classifier) and proofs of its specified properties. *)

From Stdlib Require Import Ascii ZArith.
From stdpp Require Import base list gmap strings.

Open Scope string_scope.

(** ** Character classes of Python 2's [re] module for [str] patterns
    compiled without the LOCALE or UNICODE flags. *)

(** [\w] is [[a-zA-Z0-9_]]. *)
Definition is_word (c : ascii) : bool :=
  let n := nat_of_ascii c in
  (Nat.leb 97 n && Nat.leb n 122) || (Nat.leb 65 n && Nat.leb n 90)
  || (Nat.leb 48 n && Nat.leb n 57) || Nat.eqb n 95.

(** [\s] is [[ \t\n\r\f\v]]; [\S] is its complement. *)
Definition is_space (c : ascii) : bool :=
  let n := nat_of_ascii c in
  Nat.eqb n 32 || Nat.eqb n 9 || Nat.eqb n 10 || Nat.eqb n 13
  || Nat.eqb n 12 || Nat.eqb n 11.

(** Greedy [p*] at the start of a string: the longest prefix whose
    characters all satisfy [p], and the remaining suffix. *)
Fixpoint span (p : ascii -> bool) (s : string) : string * string :=
  match s with
  | EmptyString => (EmptyString, EmptyString)
  | String c rest =>
      if p c then let '(m, r) := span p rest in (String c m, r)
      else (EmptyString, s)
  end.

(** ** The two patterns of [Simple.__init__], applied with [re.match]
    (anchored at the start of the token only). *)

(** [flag_pattern = re.compile(r"-(\w+)")]: on a match, [groups()] is the
    one-element tuple holding the word run. *)
Definition flag_match (t : string) : option (list string) :=
  match t with
  | String "-" rest =>
      let '(w, _) := span is_word rest in
      match w with
      | EmptyString => None
      | _ => Some [w]
      end
  | _ => None
  end.

(** [option_pattern = re.compile(r"--(\w+)(?:=(\S+))?")]: on a match,
    [groups()] is [(name, value)], the value being [None] when the optional
    group does not take part in the match. The group is optional, so the
    greedy [\w+] is never backtracked. *)
Definition option_match (t : string) : option (string * option string) :=
  match t with
  | String "-" (String "-" rest) =>
      let '(name, r) := span is_word rest in
      match name with
      | EmptyString => None
      | _ =>
          match r with
          | String "=" r' =>
              let '(v, _) := span (fun c => negb (is_space c)) r' in
              match v with
              | EmptyString => Some (name, None)
              | _ => Some (name, Some v)
              end
          | _ => Some (name, None)
          end
      end
  | _ => None
  end.

(** ** The classifier state (the instance attributes of [Simple]). *)

Record Simple := mkSimple {
  command : string;
  flags : list string;
  options : gmap string (option string);
  positional : list string
}.

(** One iteration of the [for argument in self.arguments] loop. *)
Definition step (st : Simple) (argument : string) : Simple :=
  let flag_m := flag_match argument in
  let option_m := option_match argument in
  match flag_m with
  | Some groups =>
      (* characters = [flag for flag in flag_match.groups()] *)
      let characters := map (fun flag => flag) groups in
      mkSimple (command st) (flags st ++ characters) (options st) (positional st)
  | None =>
      match option_m with
      | Some (name, value) =>
          mkSimple (command st) (flags st) (<[name := value]> (options st))
                   (positional st)
      | None =>
          mkSimple (command st) (flags st) (options st)
                   (positional st ++ [argument])
      end
  end.

(** [Simple.__init__] run on the token vector [argv] (the copy of
    [sys.argv]); [self.arguments.pop(0)] raises [IndexError] on an empty
    vector, modelled as [None]. *)
Definition init (argv : list string) : option Simple :=
  match argv with
  | [] => None
  | cmd :: arguments =>
      Some (fold_left step arguments (mkSimple cmd [] ∅ []))
  end.

(** ** Queries *)

(** Python values that flow through [get_option]: the stored option values
    ([str] or [None]), the caller's defaults and [values], and the results
    of the caller's [cast]. *)
Inductive pyval :=
| PNone
| PStr (s : string)
| PInt (z : Z).

#[global] Instance pyval_eq_dec : EqDecision pyval.
Proof. solve_decision. Defined.

(** A stored option value as a Python object. *)
Definition of_value (v : option string) : pyval :=
  match v with
  | Some s => PStr s
  | None => PNone
  end.

(** Python exceptions raised by the module; [Raised] is an exception
    raised by a caller-supplied function (the [cast] of [get_option]). *)
Inductive exc :=
| IndexError
| AssertionError
| AttributeError
| TypeError
| Raised (name : string).

Inductive res (A : Type) :=
| Ok (a : A)
| Err (e : exc).
Arguments Ok {A} a.
Arguments Err {A} e.

Definition res_bind {A B} (m : res A) (k : A -> res B) : res B :=
  match m with
  | Ok a => k a
  | Err e => Err e
  end.

Notation "x <- m ;; k" := (res_bind m (fun x => k))
  (at level 100, m at next level, right associativity).

Definition get_command (st : Simple) : string := command st.

Definition get_flags (st : Simple) : list string := flags st.

Definition get_positional (st : Simple) : list string := positional st.

Definition get_options (st : Simple) : gmap string (option string) := options st.

(** [name in self.flags]: list membership by [==]. *)
Definition has_flag (st : Simple) (name : string) : bool :=
  existsb (String.eqb name) (flags st).

Definition get_flag {A} (st : Simple) (name : string) (yes no : A) : A :=
  if has_flag st name then yes else no.

(** [name in self.options]: key membership. *)
Definition has_option (st : Simple) (name : string) : bool :=
  match options st !! name with
  | Some _ => true
  | None => false
  end.

(** [get_option(name, default=None, values=None, cast=lambda x: x)]; the
    caller's [cast] may itself raise. *)
Definition get_option (st : Simple) (name : string) (default : pyval)
    (values : option (list pyval)) (cast : pyval -> res pyval) : res pyval :=
  default <- (match values with
              | None => Ok default
              | Some vs =>
                  (* default = values[0] *)
                  match vs with
                  | [] => Err IndexError
                  | v :: _ => Ok v
                  end
              end) ;;
  let option := match options st !! name with
                | Some v => of_value v
                | None => default
                end in
  value <- cast option ;;
  match values with
  | None => Ok value
  | Some vs => if bool_decide (value ∈ vs) then Ok value else Err AssertionError
  end.

(** [self.positional[index]] with Python's list indexing: negative indices
    count from the end; anything outside [-len, len) raises [IndexError]. *)
Definition get_index (st : Simple) (index : Z) : res string :=
  let n := Z.of_nat (length (positional st)) in
  let j := if Z.ltb index 0 then (index + n)%Z else index in
  if Z.leb 0 j && Z.ltb j n then
    match positional st !! Z.to_nat j with
    | Some a => Ok a
    | None => Err IndexError
    end
  else Err IndexError.

Fixpoint has_any (st : Simple) (names : list string) : bool :=
  match names with
  | [] => false
  | name :: rest =>
      if has_flag st name then true
      else if has_option st name then true
      else has_any st rest
  end.

Fixpoint has_all (st : Simple) (names : list string) : bool :=
  match names with
  | [] => true
  | name :: rest =>
      if has_flag st name then has_all st rest
      else if has_option st name then has_all st rest
      else false
  end.

(** ** Module-level functions, over the module's [parser] instance. *)

(** [def command(strip=True): return parser.get_command()]. *)
Definition command_fn (parser : Simple) (strip : bool) : string :=
  get_command parser.

(** Attribute resolution on a [Simple] instance: the instance dictionary,
    then the class [Simple], then [object] (Python 2). *)
Inductive attr :=
| AField (name : string)
| AMethod (name : string)
| AObject (name : string).

Definition instance_attrs : list string :=
  ["arguments"; "command"; "flags"; "options"; "positional"].

Definition simple_class_attrs : list string :=
  ["__init__"; "get_command"; "get_flags"; "get_positional"; "has_flag";
   "get_flag"; "has_option"; "get_option"; "get_options"; "get_index";
   "has_any"; "has_all"; "__module__"; "__dict__"; "__weakref__"; "__doc__"].

Definition object_attrs : list string :=
  ["__class__"; "__delattr__"; "__format__"; "__getattribute__"; "__hash__";
   "__new__"; "__reduce__"; "__reduce_ex__"; "__repr__"; "__setattr__";
   "__sizeof__"; "__str__"; "__subclasshook__"].

Definition getattr (parser : Simple) (name : string) : res attr :=
  if existsb (String.eqb name) instance_attrs then Ok (AField name)
  else if existsb (String.eqb name) simple_class_attrs then Ok (AMethod name)
  else if existsb (String.eqb name) object_attrs then Ok (AObject name)
  else Err AttributeError.

(** Calling a resolved attribute with one integer argument. Only the
    positional accessor yields a positional argument; the instance fields
    are not callable, and no other method returns a positional argument
    (their results are collapsed to [TypeError] here). *)
Definition call_with_index (parser : Simple) (a : attr) (i : Z) : res string :=
  match a with
  | AMethod "get_index" => get_index parser i
  | _ => Err TypeError
  end.

(** [def first(): return parser.index(0)] and its siblings. *)
Definition first (parser : Simple) : res string :=
  m <- getattr parser "index" ;; call_with_index parser m 0.

Definition second (parser : Simple) : res string :=
  m <- getattr parser "index" ;; call_with_index parser m 1.

Definition third (parser : Simple) : res string :=
  m <- getattr parser "index" ;; call_with_index parser m 2.

(** ** The token vector built by the self-test [check_arguments]:
    the command, the positionals, ["-%c"] per flag character, then
    ["--name"] or ["--name=value"] per option ([if options[name]] is false
    for [None] and for the empty string). Flags and option names come in
    the (shuffled) order given. *)
Definition option_token (name : string) (value : option string) : string :=
  match value with
  | Some v => match v with
              | EmptyString => "--" +:+ name
              | _ => "--" +:+ name +:+ "=" +:+ v
              end
  | None => "--" +:+ name
  end.

Definition build_arguments (cmd : string) (positional_in : list string)
    (flags_in : list ascii) (options_in : list (string * option string))
    : list string :=
  [cmd] ++ positional_in
  ++ map (fun c => String "-" (String c EmptyString)) flags_in
  ++ map (fun '(name, value) => option_token name value) options_in.

(** ** Helpers on strings *)

Fixpoint all_chars (p : ascii -> bool) (s : string) : bool :=
  match s with
  | EmptyString => true
  | String c rest => p c && all_chars p rest
  end.

(** The string is empty or its first character fails [p]. *)
Definition starts_not (p : ascii -> bool) (s : string) : bool :=
  match s with
  | EmptyString => true
  | String c _ => negb (p c)
  end.

Definition starts_with_dash (t : string) : bool :=
  match t with
  | String c _ => Ascii.eqb c "-"
  | EmptyString => false
  end.

(** Tokens the classifier leaves positional. *)
Definition is_positional (t : string) : bool :=
  match flag_match t, option_match t with
  | None, None => true
  | _, _ => false
  end.

(** One-character strings, as ["-%c"] hands them to [flags]. *)
Definition char_string (c : ascii) : string := String c EmptyString.

(** The options accumulated by the loop, read off its option tokens. *)
Definition insert_all (m : gmap string (option string))
    (opts : list (string * option string)) : gmap string (option string) :=
  fold_left (fun acc '(name, value) => <[name := value]> acc) opts m.

Lemma append_empty_r (s : string) : s +:+ EmptyString = s.
Proof. induction s as [|c s IH]; [reflexivity|]. exact (f_equal (String c) IH). Qed.

(** The flag entries one argument token contributes (the [if flag_match]
    branch of the loop). *)
Definition flag_entries (t : string) : list string :=
  match flag_match t with
  | Some groups => map (fun flag => flag) groups
  | None => []
  end.

(** The option entry one argument token contributes (the [elif
    option_match] branch, reached only when the flag pattern fails). *)
Definition option_entry (t : string) : option (string * option string) :=
  match flag_match t with
  | Some _ => None
  | None => option_match t
  end.

Definition option_entries (arguments : list string) : list (string * option string) :=
  flat_map (fun t => match option_entry t with Some e => [e] | None => [] end)
           arguments.

(** [for index, argument in enumerate(xs)], from a starting index. *)
Fixpoint enumerate_from {A} (k : nat) (xs : list A) : list (nat * A) :=
  match xs with
  | [] => []
  | x :: rest => (k, x) :: enumerate_from (S k) rest
  end.

(** The assertions of the self-test [check_arguments], run on the token
    vector it builds ([build_arguments]); [true] when all of them pass.
    [assert sys.argv == arguments] holds trivially and is left out. The
    flags and the option entries are taken in the order the shuffles left
    them; [get_flag(flag, yes=None)] is modelled with [yes := None] and
    [no := Some false] (Python's [False]). *)
Definition check_arguments (cmd : string) (positional_in : list string)
    (flags_in : list ascii) (options_in : list (string * option string)) : bool :=
  match init (build_arguments cmd positional_in flags_in options_in) with
  | None => false
  | Some parser =>
      String.eqb (get_command parser) cmd
      && forallb (fun '(index, argument) =>
                    match get_index parser (Z.of_nat index) with
                    | Ok a => String.eqb a argument
                    | Err _ => false
                    end) (enumerate_from 0 positional_in)
      && forallb (fun c =>
                    has_any parser [char_string c]
                    && has_flag parser (char_string c)
                    && match get_flag parser (char_string c) None (Some false) with
                       | None => true
                       | Some _ => false
                       end) flags_in
      && forallb (fun '(name, value) =>
                    has_option parser name
                    && match get_option parser name PNone None Ok with
                       | Ok v => bool_decide (v = of_value value)
                       | Err _ => false
                       end) options_in
      && has_all parser (map char_string flags_in)
      && has_all parser (map fst options_in)
  end.

Lemma span_app (p : ascii -> bool) (w rest : string) :
  all_chars p w = true -> starts_not p rest = true ->
  span p (w +:+ rest) = (w, rest).
Proof.
  induction w as [|c w IH]; simpl; intros Hw Hr.
  - destruct rest as [|c rest]; simpl in *; [reflexivity|].
    destruct (p c); [discriminate|reflexivity].
  - apply andb_prop in Hw as [Hc Hw]. rewrite Hc, (IH Hw Hr). reflexivity.
Qed.

Lemma span_all (p : ascii -> bool) (w : string) :
  all_chars p w = true -> span p w = (w, EmptyString).
Proof.
  induction w as [|c w IH]; simpl; intros Hw; [reflexivity|].
  apply andb_prop in Hw as [Hc Hw]. rewrite Hc, (IH Hw). reflexivity.
Qed.

Lemma flag_match_nondash (t : string) :
  starts_with_dash t = false -> flag_match t = None.
Proof.
  destruct t as [|c r]; [reflexivity|]. simpl.
  destruct c as [[] [] [] [] [] [] [] []]; simpl; intros H;
    try discriminate; reflexivity.
Qed.

Lemma option_match_nondash (t : string) :
  starts_with_dash t = false -> option_match t = None.
Proof.
  destruct t as [|c r]; [reflexivity|]. simpl.
  destruct c as [[] [] [] [] [] [] [] []]; simpl; intros H;
    try discriminate; reflexivity.
Qed.

Lemma flag_match_double_dash (r : string) :
  flag_match (String "-" (String "-" r)) = None.
Proof. reflexivity. Qed.

Lemma flag_match_word (w rest : string) :
  w <> EmptyString -> all_chars is_word w = true ->
  starts_not is_word rest = true ->
  flag_match ("-" +:+ w +:+ rest) = Some [w].
Proof.
  intros Hne Hw Hr.
  change ("-" +:+ w +:+ rest) with (String "-" (w +:+ rest)).
  unfold flag_match.
  rewrite (span_app is_word w rest Hw Hr).
  destruct w; [congruence|reflexivity].
Qed.

Lemma option_match_name (name rest : string) :
  name <> EmptyString -> all_chars is_word name = true ->
  starts_not (fun c => is_word c || Ascii.eqb c "=") rest = true ->
  option_match ("--" +:+ name +:+ rest) = Some (name, None).
Proof.
  intros Hne Hw Hr.
  change ("--" +:+ name +:+ rest) with (String "-" (String "-" (name +:+ rest))).
  unfold option_match.
  assert (Hr' : starts_not is_word rest = true).
  { destruct rest as [|c r]; simpl in *; [reflexivity|].
    destruct (is_word c); simpl in *; [discriminate|reflexivity]. }
  rewrite (span_app is_word name rest Hw Hr').
  destruct name as [|c0 name0]; [congruence|].
  destruct rest as [|c r]; [reflexivity|].
  simpl in Hr. apply negb_true_iff, orb_false_iff in Hr as [_ Heq].
  destruct c as [[] [] [] [] [] [] [] []]; try discriminate; reflexivity.
Qed.

Lemma option_match_value (name v : string) :
  name <> EmptyString -> all_chars is_word name = true ->
  v <> EmptyString -> all_chars (fun c => negb (is_space c)) v = true ->
  option_match ("--" +:+ name +:+ "=" +:+ v) = Some (name, Some v).
Proof.
  intros Hne Hw Hvne Hv.
  change ("--" +:+ name +:+ "=" +:+ v)
    with (String "-" (String "-" (name +:+ String "=" v))).
  unfold option_match.
  rewrite (span_app is_word name (String "=" v) Hw eq_refl).
  rewrite (span_all _ v Hv).
  destruct name; [congruence|]. destruct v; [congruence|]. reflexivity.
Qed.

Lemma fold_step_command (args : list string) (st : Simple) :
  command (fold_left step args st) = command st.
Proof.
  revert st. induction args as [|t args IH]; intros st; simpl; [reflexivity|].
  rewrite IH. unfold step.
  destruct (flag_match t); [reflexivity|].
  destruct (option_match t) as [[? ?]|]; reflexivity.
Qed.

Lemma has_flag_spec (st : Simple) (name : string) :
  has_flag st name = true <-> In name (flags st).
Proof.
  unfold has_flag. rewrite existsb_exists. split.
  - intros [x [Hin Heq]]. apply String.eqb_eq in Heq. subst. exact Hin.
  - intros Hin. exists name. split; [exact Hin|]. apply String.eqb_refl.
Qed.

Lemma has_option_spec (st : Simple) (name : string) :
  has_option st name = true <-> is_Some (options st !! name).
Proof.
  unfold has_option. destruct (options st !! name); split; intros H;
    try reflexivity; try discriminate; [eexists; reflexivity|].
  destruct H as [? H]; discriminate.
Qed.

(** ** Claims *)

(** C1 (divergence): the flag branch extends [flags] with
    [flag_match.groups()], the one-element tuple holding the whole word run,
    so ["-abc"] is stored as the single flag ["abc"] and none of ["a"],
    ["b"], ["c"] is found by [has_flag]. *)
Lemma flag_run_stored_whole :
  init ["prog"; "-abc"] = Some (mkSimple "prog" ["abc"] ∅ []) /\
  get_flags (mkSimple "prog" ["abc"] ∅ []) = ["abc"] /\
  has_flag (mkSimple "prog" ["abc"] ∅ []) "a" = false /\
  has_flag (mkSimple "prog" ["abc"] ∅ []) "b" = false /\
  has_flag (mkSimple "prog" ["abc"] ∅ []) "c" = false /\
  has_flag (mkSimple "prog" ["abc"] ∅ []) "abc" = true.
Proof. repeat split; reflexivity. Qed.

(** C3: each argument token takes exactly one branch of the loop: it
    appends a non-empty list of flag entries, or writes one option entry, or
    appends itself to the positionals, and no two of these at once;
    construction is the loop run over every argument token. *)
Definition adds_flags (st st' : Simple) : Prop :=
  exists fs, fs <> [] /\
    st' = mkSimple (command st) (flags st ++ fs) (options st) (positional st).

Definition adds_option (st st' : Simple) : Prop :=
  exists name value,
    st' = mkSimple (command st) (flags st) (<[name := value]> (options st))
                   (positional st).

Definition adds_positional (st : Simple) (t : string) (st' : Simple) : Prop :=
  st' = mkSimple (command st) (flags st) (options st) (positional st ++ [t]).

Theorem classification_exclusive_total :
  (forall cmd arguments,
     init (cmd :: arguments) = Some (fold_left step arguments (mkSimple cmd [] ∅ []))) /\
  (forall (st : Simple) (t : string),
     let st' := step st t in
     (adds_flags st st' \/ adds_option st st' \/ adds_positional st t st') /\
     ~ (adds_flags st st' /\ adds_option st st') /\
     ~ (adds_flags st st' /\ adds_positional st t st') /\
     ~ (adds_option st st' /\ adds_positional st t st')).
Proof.
  split; [reflexivity|].
  intros st t st'.
  assert (Hlen : forall a b : Simple, a = b ->
            length (flags a) = length (flags b) /\
            length (positional a) = length (positional b)).
  { intros a b ->. split; reflexivity. }
  split; [|split; [|split]].
  - subst st'. unfold step.
    destruct (flag_match t) as [groups|] eqn:Hf.
    + left. exists (map (fun flag => flag) groups). split; [|reflexivity].
      unfold flag_match in Hf.
      destruct t as [|c r]; [discriminate|].
      destruct (Ascii.ascii_dec c "-") as [->|Hc].
      * destruct (span is_word r) as [w ?]. destruct w; [discriminate|].
        injection Hf as <-. simpl. discriminate.
      * destruct c as [[] [] [] [] [] [] [] []]; try discriminate;
          exfalso; apply Hc; reflexivity.
    + destruct (option_match t) as [[name value]|].
      * right; left. exists name, value. reflexivity.
      * right; right. reflexivity.
  - intros [[fs [Hfs E1]] [name [value E2]]].
    rewrite E1 in E2. apply Hlen in E2 as [E2 _]. simpl in E2.
    rewrite length_app in E2. destruct fs; [congruence|simpl in E2; lia].
  - intros [[fs [Hfs E1]] E2].
    rewrite E1 in E2. apply Hlen in E2 as [_ E2]. simpl in E2.
    rewrite length_app in E2. simpl in E2. lia.
  - intros [[name [value E1]] E2].
    rewrite E1 in E2. apply Hlen in E2 as [_ E2]. simpl in E2.
    rewrite length_app in E2. simpl in E2. lia.
Qed.

(** C4: a token ["--name"] with a word-character name records [name] as a
    present option with the absent value [None], touching neither flags nor
    positionals; on [prog --first=1.2 --second=!? --third] the options are
    [{first: "1.2", second: "!?", third: None}] and there are no flags or
    positionals. *)
Theorem option_without_value_is_absent :
  (forall (st : Simple) (name : string),
     name <> EmptyString -> all_chars is_word name = true ->
     let st' := step st ("--" +:+ name) in
     st' = mkSimple (command st) (flags st) (<[name := None]> (options st))
                    (positional st) /\
     has_option st' name = true /\ options st' !! name = Some None) /\
  init ["prog"; "--first=1.2"; "--second=!?"; "--third"] =
    Some (mkSimple "prog" []
            (<["first" := Some "1.2"]> (<["second" := Some "!?"]>
               (<["third" := None]> ∅))) []).
Proof.
  split.
  - intros st name Hne Hw st'.
    assert (Hst : st' = mkSimple (command st) (flags st)
                          (<[name := None]> (options st)) (positional st)).
    { subst st'. unfold step.
      change ("--" +:+ name) with (String "-" (String "-" name)).
      rewrite flag_match_double_dash.
      pose proof (option_match_name name EmptyString Hne Hw eq_refl) as Ho.
      rewrite append_empty_r in Ho.
      change ("--" +:+ name) with (String "-" (String "-" name)) in Ho.
      rewrite Ho.
      reflexivity. }
    split; [exact Hst|]. rewrite Hst. unfold has_option. simpl.
    rewrite lookup_insert_eq. split; reflexivity.
  - vm_compute. reflexivity.
Qed.

(** C6: [has_any] holds iff some queried name is a flag or an option key;
    [has_all] holds iff every queried name is one. *)
Theorem has_any_has_all_spec (st : Simple) (names : list string) :
  (has_any st names = true <->
     exists name, In name names /\
       (In name (flags st) \/ is_Some (options st !! name))) /\
  (has_all st names = true <->
     forall name, In name names ->
       In name (flags st) \/ is_Some (options st !! name)).
Proof.
  assert (Hpresent : forall name,
            (has_flag st name || has_option st name) = true <->
            In name (flags st) \/ is_Some (options st !! name)).
  { intros name. rewrite orb_true_iff, has_flag_spec, has_option_spec. reflexivity. }
  assert (Hany : has_any st names =
                 existsb (fun name => has_flag st name || has_option st name) names).
  { induction names as [|n names IH]; [reflexivity|]. simpl.
    destruct (has_flag st n), (has_option st n); simpl; auto. }
  assert (Hall : has_all st names =
                 forallb (fun name => has_flag st name || has_option st name) names).
  { clear Hany. induction names as [|n names IH]; [reflexivity|]. simpl.
    destruct (has_flag st n), (has_option st n); simpl; auto. }
  rewrite Hany, Hall, existsb_exists, forallb_forall. split.
  - split.
    + intros [x [Hin H]]. exists x. split; [exact Hin|]. apply Hpresent, H.
    + intros [x [Hin H]]. exists x. split; [exact Hin|]. apply Hpresent, H.
  - split.
    + intros H x Hin. apply Hpresent, H, Hin.
    + intros H x Hin. apply Hpresent, H, Hin.
Qed.

(** C8 (counterexample): [command(strip=True)] returns the stored command
    name unchanged, directories included. *)
Lemma command_strip_keeps_directories :
  command_fn (mkSimple "/usr/bin/prog" [] ∅ []) true = "/usr/bin/prog" /\
  "/usr/bin/prog" <> "prog".
Proof. split; [reflexivity|discriminate]. Qed.

(** C8 (as the code has it): [command] ignores [strip] and returns the
    first token of the vector as it was given. *)
Theorem command_returns_first_token :
  forall (cmd : string) (arguments : list string) (strip : bool),
    exists st, init (cmd :: arguments) = Some st /\ command_fn st strip = cmd.
Proof.
  intros cmd arguments strip. eexists. split; [reflexivity|].
  unfold command_fn, get_command. rewrite fold_step_command. reflexivity.
Qed.

(** C10: [first], [second] and [third] look up the attribute [index],
    which neither the instance, nor [Simple], nor [object] defines, so they
    raise [AttributeError] on every parser. *)
Theorem first_second_third_raise :
  forall parser : Simple,
    first parser = Err AttributeError /\
    second parser = Err AttributeError /\
    third parser = Err AttributeError.
Proof. intros parser. repeat split; reflexivity. Qed.

Lemma fold_step_positional (arguments : list string) (st : Simple) :
  positional (fold_left step arguments st) =
  (positional st ++ List.filter is_positional arguments)%list.
Proof.
  revert st. induction arguments as [|t arguments IH]; intros st; simpl.
  - rewrite app_nil_r. reflexivity.
  - rewrite IH. unfold step, is_positional.
    destruct (flag_match t); simpl; [reflexivity|].
    destruct (option_match t) as [[? ?]|]; simpl; [reflexivity|].
    rewrite <- app_assoc. reflexivity.
Qed.

Lemma get_index_nat (st : Simple) (i : nat) :
  get_index st (Z.of_nat i) =
  match positional st !! i with Some a => Ok a | None => Err IndexError end.
Proof.
  unfold get_index.
  replace (Z.ltb (Z.of_nat i) 0) with false by (symmetry; apply Z.ltb_ge; lia).
  rewrite Nat2Z.id.
  destruct (Z.leb_spec 0 (Z.of_nat i)); [|lia]. simpl.
  destruct (Z.ltb_spec (Z.of_nat i) (Z.of_nat (length (positional st)))) as [Hlt|Hge].
  - reflexivity.
  - rewrite (lookup_ge_None_2 (positional st) i); [reflexivity|lia].
Qed.

(** C7: the positionals are the argument tokens that match neither
    pattern, kept in their original left-to-right order whatever flags and
    options stand between them, and [get_index(i)] returns the [i]-th of
    them. *)
Theorem positional_in_original_order (cmd : string) (arguments : list string) :
  exists st, init (cmd :: arguments) = Some st /\
    get_positional st = List.filter is_positional arguments /\
    forall i : nat,
      get_index st (Z.of_nat i) =
      match List.filter is_positional arguments !! i with
      | Some a => Ok a
      | None => Err IndexError
      end.
Proof.
  eexists. split; [reflexivity|].
  assert (Hp : get_positional (fold_left step arguments (mkSimple cmd [] ∅ [])) =
               List.filter is_positional arguments).
  { unfold get_positional. rewrite fold_step_positional. reflexivity. }
  split; [exact Hp|].
  intros i. rewrite get_index_nat. unfold get_positional in Hp. rewrite Hp.
  reflexivity.
Qed.

(** C9: the patterns are matched at the start of the token only. A token
    ["-" ++ w ++ rest] with a word run [w] followed by a non-word character
    is classified as the flag entry [w]; a token ["--" ++ name ++ rest] whose
    name is followed by neither a word character nor ["="] is the option
    [name] with value [None]; the tail is dropped and the token is never a
    positional. So ["-ab.txt"] gives the flag entry ["ab"] and
    ["--name!rest"] the option [name] without value. *)
Theorem prefix_match_classifies :
  (forall (st : Simple) (w rest : string),
     w <> EmptyString -> all_chars is_word w = true ->
     starts_not is_word rest = true ->
     step st ("-" +:+ w +:+ rest) =
       mkSimple (command st) (flags st ++ [w]) (options st) (positional st)) /\
  (forall (st : Simple) (name rest : string),
     name <> EmptyString -> all_chars is_word name = true ->
     starts_not (fun c => is_word c || Ascii.eqb c "=") rest = true ->
     step st ("--" +:+ name +:+ rest) =
       mkSimple (command st) (flags st) (<[name := None]> (options st))
                (positional st)) /\
  (forall st : Simple,
     step st "-ab.txt" =
       mkSimple (command st) (flags st ++ ["ab"]) (options st) (positional st) /\
     step st "--name!rest" =
       mkSimple (command st) (flags st) (<["name" := None]> (options st))
                (positional st)).
Proof.
  split; [|split].
  - intros st w rest Hne Hw Hr. unfold step.
    rewrite (flag_match_word w rest Hne Hw Hr). reflexivity.
  - intros st name rest Hne Hw Hr. unfold step.
    rewrite (option_match_name name rest Hne Hw Hr).
    change ("--" +:+ name +:+ rest) with (String "-" (String "-" (name +:+ rest))).
    rewrite flag_match_double_dash. reflexivity.
  - intros st. split; reflexivity.
Qed.

(** Witness of C9 at ["-ab.txt"] and ["--name!rest"], split as the general
    statements read them. *)
Lemma prefix_match_classifies_witness :
  step (mkSimple "prog" [] ∅ []) ("-" +:+ "ab" +:+ ".txt") =
    mkSimple "prog" ["ab"] ∅ [] /\
  step (mkSimple "prog" [] ∅ []) ("--" +:+ "name" +:+ "!rest") =
    mkSimple "prog" [] (<["name" := None]> ∅) [].
Proof.
  split.
  - apply (proj1 prefix_match_classifies (mkSimple "prog" [] ∅ []) "ab" ".txt");
      [discriminate|reflexivity|reflexivity].
  - apply (proj1 (proj2 prefix_match_classifies) (mkSimple "prog" [] ∅ [])
             "name" "!rest"); [discriminate|reflexivity|reflexivity].
Defined.

Lemma option_without_value_is_absent_witness :
  step (mkSimple "prog" [] ∅ []) ("--" +:+ "third") =
    mkSimple "prog" [] (<["third" := None]> ∅) [] /\
  has_option (step (mkSimple "prog" [] ∅ []) ("--" +:+ "third")) "third" = true.
Proof.
  destruct (proj1 option_without_value_is_absent (mkSimple "prog" [] ∅ []) "third")
    as [H1 [H2 _]]; [discriminate|reflexivity|].
  split; [exact H1|exact H2].
Defined.

(** *** The round trip of [check_arguments] *)

(** Well-formed option entries: a word-character name, and a value that is
    absent or a non-empty run of non-whitespace characters. *)
Definition option_entry_ok (entry : string * option string) : Prop :=
  let '(name, value) := entry in
  name <> EmptyString /\ all_chars is_word name = true /\
  match value with
  | Some v => v <> EmptyString /\ all_chars (fun c => negb (is_space c)) v = true
  | None => True
  end.

Lemma fold_positional_tokens (ps : list string) (st : Simple) :
  Forall (fun p => starts_with_dash p = false) ps ->
  fold_left step ps st =
  mkSimple (command st) (flags st) (options st) (positional st ++ ps)%list.
Proof.
  revert st. induction ps as [|p ps IH]; intros st Hps; simpl.
  - rewrite app_nil_r. destruct st; reflexivity.
  - inversion Hps as [|? ? Hp Hrest]; subst.
    rewrite IH by exact Hrest. unfold step.
    rewrite (flag_match_nondash p Hp), (option_match_nondash p Hp). simpl.
    rewrite <- app_assoc. reflexivity.
Qed.

Lemma fold_flag_tokens (fl : list ascii) (st : Simple) :
  Forall (fun c => is_word c = true) fl ->
  fold_left step (map (fun c => String "-" (String c EmptyString)) fl) st =
  mkSimple (command st) (flags st ++ map char_string fl)%list (options st)
           (positional st).
Proof.
  revert st. induction fl as [|c fl IH]; intros st Hfl; simpl.
  - rewrite app_nil_r. destruct st; reflexivity.
  - inversion Hfl as [|? ? Hc Hrest]; subst.
    rewrite IH by exact Hrest.
    assert (Hm : flag_match (String "-" (String c EmptyString)) = Some [char_string c]).
    { apply (flag_match_word (String c EmptyString) EmptyString);
        [discriminate|simpl; rewrite Hc; reflexivity|reflexivity]. }
    unfold step. rewrite Hm. simpl. rewrite <- app_assoc. reflexivity.
Qed.

Lemma step_option_token (st : Simple) (name : string) (value : option string) :
  option_entry_ok (name, value) ->
  step st (option_token name value) =
  mkSimple (command st) (flags st) (<[name := value]> (options st)) (positional st).
Proof.
  intros (Hne & Hw & Hv).
  assert (Hopt : option_match (option_token name value) = Some (name, value)).
  { destruct value as [v|].
    - destruct Hv as [Hvne Hvs]. destruct v as [|c v']; [congruence|].
      exact (option_match_value name (String c v') Hne Hw Hvne Hvs).
    - pose proof (option_match_name name EmptyString Hne Hw eq_refl) as Ho.
      rewrite append_empty_r in Ho. exact Ho. }
  assert (Hflag : flag_match (option_token name value) = None).
  { destruct value as [[|c v']|]; reflexivity. }
  unfold step. rewrite Hflag, Hopt. reflexivity.
Qed.

Lemma fold_option_tokens (opts : list (string * option string)) (st : Simple) :
  Forall option_entry_ok opts ->
  fold_left step (map (fun '(name, value) => option_token name value) opts) st =
  mkSimple (command st) (flags st) (insert_all (options st) opts) (positional st).
Proof.
  revert st. induction opts as [|[name value] opts IH]; intros st Hopts; simpl.
  - destruct st; reflexivity.
  - inversion Hopts as [|? ? Hentry Hrest]; subst.
    rewrite (step_option_token st name value Hentry).
    rewrite IH by exact Hrest. reflexivity.
Qed.

Lemma insert_all_lookup (opts : list (string * option string))
    (m : gmap string (option string)) (name : string) (value : option string) :
  NoDup (map fst opts) ->
  insert_all m opts !! name = Some value <->
  In (name, value) opts \/ (m !! name = Some value /\ ~ In name (map fst opts)).
Proof.
  revert m. induction opts as [|[k w] opts IH]; intros m Hnd; simpl.
  - split; [intros H; right; split; [exact H|intros []]|].
    intros [[]|[H _]]; exact H.
  - apply NoDup_cons in Hnd as [Hk Hnd].
    unfold insert_all in *. simpl. rewrite IH by exact Hnd.
    destruct (String.eqb_spec name k) as [->|Hne].
    + rewrite lookup_insert_eq. split.
      * intros [Hin|[Heq _]]; [left; right; exact Hin|].
        injection Heq as ->. left; left; reflexivity.
      * intros [[Heq|Hin]|[_ Hnot]].
        -- injection Heq as ->. right. split; [reflexivity|].
           intros Hin. apply Hk. apply list_elem_of_In. exact Hin.
        -- exfalso. apply Hk. apply list_elem_of_In.
           apply (in_map fst opts (k, value)). exact Hin.
        -- exfalso. apply Hnot. left; reflexivity.
    + rewrite lookup_insert_ne by congruence. split.
      * intros [Hin|[Hm Hnot]]; [left; right; exact Hin|].
        right. split; [exact Hm|]. intros [Heq|Hin]; [congruence|contradiction].
      * intros [[Heq|Hin]|[Hm Hnot]].
        -- injection Heq as ->. congruence.
        -- left. exact Hin.
        -- right. split; [exact Hm|]. intros Hin. apply Hnot. right. exact Hin.
Qed.

(** C2 (counterexample): an option whose value is the empty string comes
    back as an option without value (the self-test writes ["--x"] for it,
    and ["--x="] reads the same since [\S+] needs a character), and a
    positional ["-a"] comes back as the flag ["a"]. *)
Lemma round_trip_loses_empty_value :
  init (build_arguments "prog" [] [] [("x", Some "")]) =
    Some (mkSimple "prog" [] (<["x" := None]> ∅) []) /\
  option_match "--x=" = Some ("x", None) /\
  init (build_arguments "prog" ["-a"] [] []) = Some (mkSimple "prog" ["a"] ∅ []).
Proof. split; [vm_compute; reflexivity|split; reflexivity]. Qed.

(** C2 (as the code has it): from positionals that do not begin with
    ["-"], word-character flags, and an option mapping with word-character
    names whose values are absent or non-empty and free of whitespace, the
    vector built as [check_arguments] builds it (flags and option names in
    any order) classifies back to the command, the positional list, the
    flag list itself, and exactly the given option mapping. *)
Theorem check_arguments_round_trip (cmd : string) (positional_in : list string)
    (flags_in : list ascii) (options_in : list (string * option string)) :
  Forall (fun p => starts_with_dash p = false) positional_in ->
  Forall (fun c => is_word c = true) flags_in ->
  Forall option_entry_ok options_in ->
  NoDup (map fst options_in) ->
  exists st, init (build_arguments cmd positional_in flags_in options_in) = Some st /\
    get_command st = cmd /\
    get_positional st = positional_in /\
    get_flags st = map char_string flags_in /\
    (forall c, has_flag st (char_string c) = true <-> In c flags_in) /\
    (forall name value,
       get_options st !! name = Some value <-> In (name, value) options_in).
Proof.
  intros Hpos Hfl Hopts Hnd.
  unfold build_arguments. simpl.
  rewrite !fold_left_app.
  rewrite (fold_positional_tokens positional_in _ Hpos).
  rewrite (fold_flag_tokens flags_in _ Hfl).
  rewrite (fold_option_tokens options_in _ Hopts).
  eexists. split; [reflexivity|]. simpl.
  split; [reflexivity|]. split; [reflexivity|]. split; [reflexivity|].
  split.
  - intros c. rewrite has_flag_spec. simpl. split.
    + intros Hin. apply in_map_iff in Hin as [c' [Heq Hin]].
      injection Heq as ->. exact Hin.
    + intros Hin. apply in_map. exact Hin.
  - intros name value. unfold get_options. simpl.
    rewrite (insert_all_lookup options_in ∅ name value Hnd).
    rewrite lookup_empty. split; [intros [H|[H _]]; [exact H|discriminate]|].
    intros H; left; exact H.
Qed.

Lemma check_arguments_round_trip_witness :
  Forall (fun p => starts_with_dash p = false) ["first"; "second"] /\
  Forall (fun c => is_word c = true) ["a"%char; "b"%char] /\
  Forall option_entry_ok [("first", Some "1.2"); ("second", Some "!?"); ("third", None)] /\
  NoDup (map fst [("first", Some "1.2"); ("second", Some "!?"); ("third", None)]) /\
  exists st, init (build_arguments "prog" ["first"; "second"] ["a"%char; "b"%char]
                     [("first", Some "1.2"); ("second", Some "!?"); ("third", None)])
             = Some st /\
    get_command st = "prog" /\
    get_positional st = ["first"; "second"] /\
    get_flags st = map char_string ["a"%char; "b"%char] /\
    (forall c, has_flag st (char_string c) = true <-> In c ["a"%char; "b"%char]) /\
    (forall name value,
       get_options st !! name = Some value <->
       In (name, value) [("first", Some "1.2"); ("second", Some "!?"); ("third", None)]).
Proof.
  assert (H1 : Forall (fun p => starts_with_dash p = false) ["first"; "second"])
    by (repeat constructor).
  assert (H2 : Forall (fun c => is_word c = true) ["a"%char; "b"%char])
    by (repeat constructor).
  assert (H3 : Forall option_entry_ok
                 [("first", Some "1.2"); ("second", Some "!?"); ("third", None)]).
  { repeat constructor; simpl; repeat split; discriminate. }
  assert (H4 : NoDup (map fst [("first", Some "1.2"); ("second", Some "!?");
                                ("third", None)])).
  { apply (bool_decide_unpack _). vm_compute. exact I. }
  split; [exact H1|]. split; [exact H2|]. split; [exact H3|]. split; [exact H4|].
  exact (check_arguments_round_trip _ _ _ _ H1 H2 H3 H4).
Defined.

(** C5 (counterexample): with [values=[]], [get_option] raises
    [IndexError] at [values[0]], not an assertion failure; and an exception
    of the caller's [cast] propagates out of [get_option]. *)
Lemma get_option_other_failures :
  get_option (mkSimple "prog" [] ∅ []) "x" PNone (Some []) Ok = Err IndexError /\
  get_option (mkSimple "prog" [] (<["x" := Some "!?"]> ∅) []) "x" PNone None
    (fun _ => Err (Raised "ValueError")) = Err (Raised "ValueError").
Proof. split; reflexivity. Qed.

(** C5 (as the code has it): construction from a non-empty vector never
    fails; [get_index] raises, and only [IndexError], exactly when the index
    lies outside Python's range [[-len, len)]; [get_option] raises exactly
    when [values] is the empty list ([IndexError]), when [cast] raises (its
    exception), or when [values] is given and the cast result is not in it
    ([AssertionError]), the raw value being the stored one, else
    [values[0]] when [values] is given, else [default]. *)
Theorem get_option_get_index_failures :
  (forall (cmd : string) (arguments : list string),
     exists st, init (cmd :: arguments) = Some st) /\
  (forall (st : Simple) (index : Z) (e : exc),
     get_index st index = Err e <->
     e = IndexError /\
     (index < - Z.of_nat (length (positional st)) \/
      Z.of_nat (length (positional st)) <= index)%Z) /\
  (forall (st : Simple) (name : string) (default : pyval)
          (values : option (list pyval)) (cast : pyval -> res pyval) (e : exc),
     let raw := match options st !! name with
                | Some w => of_value w
                | None => match values with
                          | Some (v :: _) => v
                          | _ => default
                          end
                end in
     get_option st name default values cast = Err e <->
     (values = Some [] /\ e = IndexError) \/
     (values <> Some [] /\ cast raw = Err e) \/
     (exists v vs y, values = Some (v :: vs) /\ cast raw = Ok y /\
        (y ∉ v :: vs) /\ e = AssertionError)).
Proof.
  split; [|split].
  - intros cmd arguments. eexists. reflexivity.
  - intros st index e. unfold get_index.
    set (n := Z.of_nat (length (positional st))).
    destruct (Z.ltb_spec index 0) as [Hneg|Hpos];
      [set (j := (index + n)%Z)|set (j := index)];
      destruct (Z.leb_spec 0 j) as [H0|H0]; destruct (Z.ltb_spec j n) as [H1|H1];
      simpl; (split; [intros Heq|intros [-> Hr]]).
    all: try (injection Heq as <-; split; [reflexivity|]; subst j n; lia).
    all: try reflexivity.
    all: try (exfalso; subst j n; lia).
    all: destruct (positional st !! Z.to_nat j) as [a|] eqn:Hl; [discriminate|].
    all: apply lookup_ge_None_1 in Hl; exfalso; subst j n; lia.
  - intros st name default values cast e raw.
    unfold get_option, res_bind.
    destruct values as [[|v vs]|].
    + split.
      * intros Heq. injection Heq as <-. left. split; reflexivity.
      * intros [[_ ->]|[[Hne _]|[v [vs [y [Hv _]]]]]];
          [reflexivity|congruence|discriminate].
    + subst raw. simpl.
      destruct (cast _) as [y|e'] eqn:Hc.
      * destruct (bool_decide_reflect (y ∈ v :: vs)) as [Hin|Hnin].
        -- split; [discriminate|].
           intros [[Hv _]|[[_ Hc']|[v' [vs' [y' [Hv [Hc' [Hnin _]]]]]]]];
             [discriminate|congruence|].
           injection Hv as <- <-. injection Hc' as <-.
           contradiction.
        -- split.
           ++ intros Heq. injection Heq as <-. right; right.
              exists v, vs, y. repeat split; assumption.
           ++ intros [[Hv _]|[[_ Hc']|[v' [vs' [y' [Hv [Hc' [_ ->]]]]]]]];
                [discriminate|congruence|reflexivity].
      * split.
        -- intros Heq. injection Heq as <-. right; left. split; [discriminate|reflexivity].
        -- intros [[Hv _]|[[_ Hc']|[v' [vs' [y' [Hv [Hc' _]]]]]]];
             [discriminate|congruence|].
           injection Hv as <- <-. congruence.
    + subst raw. simpl.
      destruct (cast _) as [y|e'] eqn:Hc.
      * split; [discriminate|].
        intros [[Hv _]|[[_ Hc']|[v' [vs' [y' [Hv _]]]]]];
          [discriminate|congruence|discriminate].
      * split.
        -- intros Heq. injection Heq as <-. right; left. split; [discriminate|reflexivity].
        -- intros [[Hv _]|[[_ Hc']|[v' [vs' [y' [Hv _]]]]]];
             [discriminate|congruence|discriminate].
Qed.

(** ** Further properties of [arguments.py] *)

Lemma flag_match_cons (c : ascii) (r : string) :
  flag_match (String c r) = if Ascii.eqb c "-" then flag_match (String "-" r) else None.
Proof. destruct c as [[] [] [] [] [] [] [] []]; reflexivity. Qed.

Lemma option_match_cons (c : ascii) (r : string) :
  option_match (String c r) =
  if Ascii.eqb c "-" then option_match (String "-" r) else None.
Proof. destruct c as [[] [] [] [] [] [] [] []]; reflexivity. Qed.

Lemma option_match_dash_cons (c : ascii) (r : string) :
  option_match (String "-" (String c r)) =
  if Ascii.eqb c "-" then option_match (String "-" (String "-" r)) else None.
Proof. destruct c as [[] [] [] [] [] [] [] []]; reflexivity. Qed.

Lemma span_fst_all (p : ascii -> bool) (s : string) :
  all_chars p (fst (span p s)) = true.
Proof.
  induction s as [|c s IH]; simpl; [reflexivity|].
  destruct (p c) eqn:Hc; simpl; [|reflexivity].
  destruct (span p s) as [m r]. simpl in *. rewrite Hc, IH. reflexivity.
Qed.

Lemma span_word_cons (c : ascii) (r : string) :
  is_word c = true -> exists m rest, span is_word (String c r) = (String c m, rest).
Proof.
  intros Hc. simpl. rewrite Hc. destruct (span is_word r) as [m rest].
  exists m, rest. reflexivity.
Qed.

Lemma span_word_not (c : ascii) (r : string) :
  is_word c = false -> span is_word (String c r) = (EmptyString, String c r).
Proof. intros Hc. simpl. rewrite Hc. reflexivity. Qed.

(** A flag match is one non-empty run of word characters. *)
Lemma flag_match_some (t : string) (groups : list string) :
  flag_match t = Some groups ->
  exists w, groups = [w] /\ w <> EmptyString /\ all_chars is_word w = true.
Proof.
  destruct t as [|c r]; [discriminate|]. rewrite flag_match_cons.
  destruct (Ascii.eqb c "-"); [|discriminate].
  unfold flag_match. pose proof (span_fst_all is_word r) as Hall.
  destruct (span is_word r) as [w rest]. simpl in Hall.
  destruct w as [|c' w']; [discriminate|].
  intros Heq. injection Heq as <-. exists (String c' w'). repeat split.
  - discriminate.
  - exact Hall.
Qed.

Lemma option_match_some (t : string) (name : string) (value : option string) :
  option_match t = Some (name, value) -> option_entry_ok (name, value).
Proof.
  destruct t as [|c r]; [discriminate|]. rewrite option_match_cons.
  destruct (Ascii.eqb c "-"); [|discriminate].
  destruct r as [|c2 r]; [discriminate|]. rewrite option_match_dash_cons.
  destruct (Ascii.eqb c2 "-"); [|discriminate].
  unfold option_match. pose proof (span_fst_all is_word r) as Hn.
  destruct (span is_word r) as [n rest]. simpl in Hn.
  destruct n as [|cn n']; [discriminate|].
  assert (Hok : forall v, (v = None \/ exists s, v = Some s /\ s <> EmptyString /\
                  all_chars (fun c => negb (is_space c)) s = true) ->
                Some (String cn n', v) = Some (name, value) ->
                option_entry_ok (name, value)).
  { intros v Hv Heq. injection Heq as <- <-. simpl.
    split; [discriminate|]. split; [exact Hn|].
    destruct Hv as [->|[s [-> [Hs1 Hs2]]]]; [exact I|]. split; assumption. }
  destruct rest as [|ce rest'].
  - apply Hok. left. reflexivity.
  - destruct (Ascii.ascii_dec ce "=") as [->|Hne].
    + pose proof (span_fst_all (fun c => negb (is_space c)) rest') as Hv.
      destruct (span (fun c => negb (is_space c)) rest') as [v r2]. simpl in Hv.
      destruct v as [|cv v'].
      * apply Hok. left. reflexivity.
      * apply Hok. right. exists (String cv v'). split; [reflexivity|].
        split; [discriminate|exact Hv].
    + assert (Hd : match String ce rest' with
                   | String "=" r' =>
                       let '(v, _) := span (fun c => negb (is_space c)) r' in
                       match v with
                       | EmptyString => Some (String cn n', None)
                       | _ => Some (String cn n', Some v)
                       end
                   | _ => Some (String cn n', None)
                   end = Some (String cn n', None)).
      { destruct ce as [[] [] [] [] [] [] [] []]; try reflexivity.
        exfalso; apply Hne; reflexivity. }
      rewrite Hd. apply Hok. left. reflexivity.
Qed.

Lemma flag_match_some_iff (t : string) :
  flag_match t <> None <->
  exists c r, t = String "-" (String c r) /\ is_word c = true.
Proof.
  split.
  - destruct t as [|c0 r0]; [intros H; exfalso; apply H; reflexivity|].
    rewrite flag_match_cons. destruct (Ascii.eqb_spec c0 "-") as [->|_];
      [|intros H; exfalso; apply H; reflexivity].
    destruct r0 as [|c r]; [intros H; exfalso; apply H; reflexivity|].
    intros H. exists c, r. split; [reflexivity|].
    destruct (is_word c) eqn:Hc; [reflexivity|].
    exfalso. apply H. unfold flag_match. rewrite (span_word_not c r Hc). reflexivity.
  - intros [c [r [-> Hc]]]. unfold flag_match.
    destruct (span_word_cons c r Hc) as [m [rest ->]]. discriminate.
Qed.

Lemma option_match_some_iff (t : string) :
  option_match t <> None <->
  exists c r, t = String "-" (String "-" (String c r)) /\ is_word c = true.
Proof.
  split.
  - destruct t as [|c0 r0]; [intros H; exfalso; apply H; reflexivity|].
    rewrite option_match_cons. destruct (Ascii.eqb_spec c0 "-") as [->|_];
      [|intros H; exfalso; apply H; reflexivity].
    destruct r0 as [|c1 r1]; [intros H; exfalso; apply H; reflexivity|].
    rewrite option_match_dash_cons. destruct (Ascii.eqb_spec c1 "-") as [->|_];
      [|intros H; exfalso; apply H; reflexivity].
    destruct r1 as [|c r]; [intros H; exfalso; apply H; reflexivity|].
    intros H. exists c, r. split; [reflexivity|].
    destruct (is_word c) eqn:Hc; [reflexivity|].
    exfalso. apply H. unfold option_match. rewrite (span_word_not c r Hc). reflexivity.
  - intros [c [r [-> Hc]]]. unfold option_match.
    destruct (span_word_cons c r Hc) as [m [rest ->]].
    destruct rest as [|ce rest']; [discriminate|].
    destruct ce as [[] [] [] [] [] [] [] []]; try discriminate.
    destruct (span _ rest') as [[|cv v'] ?]; discriminate.
Qed.

Lemma fold_step_flags (arguments : list string) (st : Simple) :
  flags (fold_left step arguments st) = (flags st ++ flat_map flag_entries arguments)%list.
Proof.
  revert st. induction arguments as [|t arguments IH]; intros st; simpl.
  - rewrite app_nil_r. reflexivity.
  - rewrite IH. unfold step, flag_entries.
    destruct (flag_match t); simpl; [rewrite app_assoc; reflexivity|].
    destruct (option_match t) as [[? ?]|]; reflexivity.
Qed.

Lemma fold_step_options (arguments : list string) (st : Simple) :
  options (fold_left step arguments st) =
  insert_all (options st) (option_entries arguments).
Proof.
  revert st. induction arguments as [|t arguments IH]; intros st; simpl;
    [reflexivity|].
  rewrite IH. unfold step, option_entry.
  destruct (flag_match t); simpl; [reflexivity|].
  destruct (option_match t) as [[? ?]|]; reflexivity.
Qed.

Lemma insert_all_snoc (m : gmap string (option string))
    (l : list (string * option string)) (k : string) (w : option string) :
  insert_all m (l ++ [(k, w)])%list = <[k := w]> (insert_all m l).
Proof. unfold insert_all. rewrite fold_left_app. reflexivity. Qed.

Lemma app_cons_snoc_inv {A} (pre post l : list A) (x y : A) :
  (pre ++ x :: post = l ++ [y])%list ->
  (post = [] /\ pre = l /\ x = y) \/
  (exists post', post = (post' ++ [y])%list /\ l = (pre ++ x :: post')%list).
Proof.
  destruct post as [|z post'] using rev_ind; intros E.
  - left. apply app_inj_tail in E as [-> ->]. auto.
  - right. rewrite app_comm_cons, app_assoc in E.
    apply app_inj_tail in E as [E ->]. exists post'. auto.
Qed.

(** The option entries seen later override earlier ones: a name maps to
    the value of its last entry. *)
Lemma insert_all_last (opts : list (string * option string))
    (m : gmap string (option string)) (name : string) (value : option string) :
  insert_all m opts !! name = Some value <->
  (exists pre post, opts = (pre ++ (name, value) :: post)%list /\
                    ~ In name (map fst post)) \/
  (m !! name = Some value /\ ~ In name (map fst opts)).
Proof.
  induction opts as [|[k w] l IH] using rev_ind.
  - simpl. split.
    + intros H. right. split; [exact H|intros []].
    + intros [[pre [post [E _]]]|[H _]]; [|exact H].
      exfalso. exact (app_cons_not_nil _ _ _ E).
  - rewrite insert_all_snoc, map_app. simpl.
    destruct (String.eqb_spec name k) as [->|Hne].
    + rewrite lookup_insert_eq. split.
      * intros Heq. injection Heq as ->. left. exists l, []. split; [reflexivity|].
        intros [].
      * intros [[pre [post [E Hn]]]|[_ Hn]].
        -- symmetry in E. apply app_cons_snoc_inv in E as [[_ [_ Heq]]|[post' [-> _]]].
           ++ injection Heq as ->. reflexivity.
           ++ exfalso. apply Hn. rewrite map_app. apply in_or_app. right. left.
              reflexivity.
        -- exfalso. apply Hn. apply in_or_app. right. left. reflexivity.
    + rewrite lookup_insert_ne by congruence. rewrite IH. split.
      * intros [[pre [post [E Hn]]]|[Hm Hn]].
        -- left. exists pre, (post ++ [(k, w)])%list. split.
           ++ rewrite E, <- app_assoc. reflexivity.
           ++ rewrite map_app. simpl. intros Hin. apply in_app_or in Hin as [Hin|[Heq|[]]];
                [contradiction|congruence].
        -- right. split; [exact Hm|]. intros Hin.
           apply in_app_or in Hin as [Hin|[Heq|[]]]; [contradiction|congruence].
      * intros [[pre [post [E Hn]]]|[Hm Hn]].
        -- symmetry in E. apply app_cons_snoc_inv in E as [[_ [_ Heq]]|[post' [-> E]]].
           ++ injection Heq as ->. congruence.
           ++ left. exists pre, post'. split; [exact E|].
              intros Hin. apply Hn. rewrite map_app. apply in_or_app. left. exact Hin.
        -- right. split; [exact Hm|]. intros Hin. apply Hn. apply in_or_app.
           left. exact Hin.
Qed.

Lemma flag_entries_spec (t : string) :
  (flag_match t = None /\ flag_entries t = []) \/
  (exists w, flag_match t = Some [w] /\ flag_entries t = [w] /\
             w <> EmptyString /\ all_chars is_word w = true).
Proof.
  unfold flag_entries. destruct (flag_match t) as [groups|] eqn:Hf; [|left; auto].
  right. destruct (flag_match_some t groups Hf) as [w [-> [Hne Hw]]].
  exists w. auto.
Qed.

Lemma option_entries_in (arguments : list string) (name : string) (value : option string) :
  In (name, value) (option_entries arguments) ->
  exists t, In t arguments /\ flag_match t = None /\ option_match t = Some (name, value).
Proof.
  unfold option_entries. rewrite in_flat_map. intros [t [Hin He]].
  exists t. split; [exact Hin|]. unfold option_entry in He.
  destruct (flag_match t); [contradiction|].
  destruct (option_match t) as [e|]; [|contradiction].
  destruct He as [->|[]]. auto.
Qed.

(** X: after construction, the flag list is, in token order, the word run
    of each argument token matching the flag pattern: one entry per such
    token, each a non-empty string of word characters. *)
Theorem flags_from_flag_tokens (cmd : string) (arguments : list string) :
  exists st, init (cmd :: arguments) = Some st /\
    get_flags st = flat_map flag_entries arguments /\
    length (get_flags st) =
      length (List.filter (fun t => match flag_match t with
                                    | Some _ => true
                                    | None => false
                                    end) arguments) /\
    Forall (fun f => f <> EmptyString /\ all_chars is_word f = true) (get_flags st).
Proof.
  eexists. split; [reflexivity|].
  unfold get_flags. rewrite fold_step_flags. simpl.
  split; [reflexivity|].
  induction arguments as [|t arguments [IHl IHf]]; simpl; [split; [reflexivity|constructor]|].
  destruct (flag_entries_spec t) as [[Hf He]|[w [Hf [He [Hne Hw]]]]];
    rewrite Hf, He; simpl.
  - split; assumption.
  - split; [rewrite IHl; reflexivity|]. constructor; [split; assumption|exact IHf].
Qed.

(** X: after construction, a name maps to the value of the last option
    entry with that name among the argument tokens (later occurrences
    overwrite earlier ones), and to nothing if there is none. *)
Theorem options_last_entry_wins (cmd : string) (arguments : list string) :
  exists st, init (cmd :: arguments) = Some st /\
    forall name value,
      get_options st !! name = Some value <->
      exists pre post, option_entries arguments = (pre ++ (name, value) :: post)%list /\
                       ~ In name (map fst post).
Proof.
  eexists. split; [reflexivity|]. intros name value.
  unfold get_options. rewrite fold_step_options. simpl.
  rewrite insert_all_last, lookup_empty. split.
  - intros [H|[H _]]; [exact H|discriminate].
  - intros H. left. exact H.
Qed.

(** X: every stored option has a non-empty word-character name, and a
    value that is absent or a non-empty string without whitespace. *)
Theorem stored_options_well_formed (cmd : string) (arguments : list string) :
  exists st, init (cmd :: arguments) = Some st /\
    forall name value, get_options st !! name = Some value ->
      option_entry_ok (name, value).
Proof.
  eexists. split; [reflexivity|]. intros name value.
  unfold get_options. rewrite fold_step_options. simpl.
  rewrite insert_all_last, lookup_empty.
  intros [[pre [post [E _]]]|[H _]]; [|discriminate].
  assert (Hin : In (name, value) (option_entries arguments)).
  { rewrite E. apply in_or_app. right. left. reflexivity. }
  apply option_entries_in in Hin as [t [_ [_ Ho]]].
  exact (option_match_some t name value Ho).
Qed.

(** X: no token matches both patterns: the option pattern needs ["--"],
    and the flag pattern then fails on the second ["-"]. *)
Theorem flag_option_patterns_disjoint (t : string) :
  flag_match t = None \/ option_match t = None.
Proof.
  destruct (option_match t) eqn:Ho; [left|right; reflexivity].
  assert (Hne : option_match t <> None) by congruence.
  apply option_match_some_iff in Hne as [c [r [-> _]]].
  apply flag_match_double_dash.
Qed.

(** X: a token is positional exactly when it starts neither with ["-"]
    and a word character nor with ["--"] and a word character; so negative
    numbers such as ["-5"] are flags, while ["-"], ["--"], ["-.x"] and
    ["--=x"] are positional. *)
Theorem positional_token_shape (t : string) :
  is_positional t = true <->
  ~ (exists c r, t = String "-" (String c r) /\ is_word c = true) /\
  ~ (exists c r, t = String "-" (String "-" (String c r)) /\ is_word c = true).
Proof.
  rewrite <- flag_match_some_iff, <- option_match_some_iff.
  unfold is_positional.
  split.
  - intros Hp. destruct (flag_match t), (option_match t); try discriminate Hp.
    split; intros H; apply H; reflexivity.
  - intros [H1 H2].
    destruct (flag_match t); [exfalso; apply H1; discriminate|].
    destruct (option_match t); [exfalso; apply H2; discriminate|].
    reflexivity.
Qed.

Lemma step_valueless_option (st : Simple) (name : string) :
  name <> EmptyString -> all_chars is_word name = true ->
  step st ("--" +:+ name) =
  mkSimple (command st) (flags st) (<[name := None]> (options st)) (positional st).
Proof.
  intros Hne Hw. unfold step.
  pose proof (option_match_name name EmptyString Hne Hw eq_refl) as Ho.
  rewrite append_empty_r in Ho. rewrite Ho.
  change ("--" +:+ name) with (String "-" (String "-" name)).
  rewrite flag_match_double_dash. reflexivity.
Qed.

(** X: when the last argument is ["--name"], [get_option(name, default)]
    returns [None], not the default: the default only stands in for a
    name that is absent. *)
Theorem valueless_option_ignores_default (cmd : string) (arguments : list string)
    (name : string) (default : pyval) :
  name <> EmptyString -> all_chars is_word name = true ->
  exists st, init (cmd :: arguments ++ ["--" +:+ name])%list = Some st /\
    has_option st name = true /\
    get_option st name default None Ok = Ok PNone.
Proof.
  intros Hne Hw. eexists. split; [reflexivity|].
  rewrite fold_left_app. simpl. rewrite (step_valueless_option _ name Hne Hw).
  unfold has_option, get_option, res_bind. simpl.
  rewrite lookup_insert_eq. split; reflexivity.
Qed.

Lemma valueless_option_ignores_default_witness :
  exists st, init ("prog" :: ["x"] ++ ["--" +:+ "verbose"])%list = Some st /\
    has_option st "verbose" = true /\
    get_option st "verbose" (PStr "on") None Ok = Ok PNone.
Proof.
  apply (valueless_option_ignores_default "prog" ["x"] "verbose" (PStr "on"));
    [discriminate|reflexivity].
Defined.

(** X: with [values] given and the identity cast, [get_option] ignores
    [default]: an absent option yields [values[0]] without raising, and a
    present one yields its stored value when that is in [values] and raises
    [AssertionError] otherwise. *)
Theorem get_option_values_identity (st : Simple) (name : string) (default v : pyval)
    (vs : list pyval) :
  (options st !! name = None ->
   get_option st name default (Some (v :: vs)) Ok = Ok v) /\
  (forall w, options st !! name = Some w ->
   get_option st name default (Some (v :: vs)) Ok =
     if bool_decide (of_value w ∈ v :: vs) then Ok (of_value w) else Err AssertionError).
Proof.
  unfold get_option, res_bind. split.
  - intros H. rewrite H. rewrite bool_decide_eq_true_2; [reflexivity|].
    apply list_elem_of_here.
  - intros w H. rewrite H. reflexivity.
Qed.

Lemma get_option_values_identity_witness :
  get_option (mkSimple "prog" [] ∅ []) "mode" PNone (Some [PStr "fast"; PStr "slow"]) Ok
    = Ok (PStr "fast") /\
  get_option (mkSimple "prog" [] (<["mode" := Some "other"]> ∅) []) "mode" PNone
    (Some [PStr "fast"; PStr "slow"]) Ok = Err AssertionError.
Proof.
  split.
  - apply (proj1 (get_option_values_identity (mkSimple "prog" [] ∅ []) "mode" PNone
                    (PStr "fast") [PStr "slow"])). reflexivity.
  - rewrite (proj2 (get_option_values_identity
                      (mkSimple "prog" [] (<["mode" := Some "other"]> ∅) []) "mode"
                      PNone (PStr "fast") [PStr "slow"]) (Some "other")
                   (lookup_insert_eq _ _ _)).
    reflexivity.
Defined.

(** X: a negative index counts from the end: for [1 <= k <= len],
    [get_index(-k)] is [get_index(len - k)], which succeeds. *)
Theorem get_index_negative (st : Simple) (k : nat) :
  1 <= k <= length (positional st) ->
  get_index st (- Z.of_nat k) = get_index st (Z.of_nat (length (positional st) - k)) /\
  exists a, get_index st (- Z.of_nat k) = Ok a.
Proof.
  intros Hk. rewrite get_index_nat.
  destruct (lookup_lt_is_Some_2 (positional st) (length (positional st) - k))
    as [a Ha]; [lia|].
  rewrite Ha.
  assert (E : get_index st (- Z.of_nat k) = Ok a).
  { unfold get_index.
    replace (Z.ltb (- Z.of_nat k) 0) with true by (symmetry; apply Z.ltb_lt; lia).
    replace (Z.leb 0 (- Z.of_nat k + Z.of_nat (length (positional st))))
      with true by (symmetry; apply Z.leb_le; lia).
    replace (Z.ltb (- Z.of_nat k + Z.of_nat (length (positional st)))
                   (Z.of_nat (length (positional st))))
      with true by (symmetry; apply Z.ltb_lt; lia).
    simpl.
    replace (Z.to_nat (- Z.of_nat k + Z.of_nat (length (positional st))))
      with (length (positional st) - k) by lia.
    rewrite Ha. reflexivity. }
  rewrite E. split; [reflexivity|]. exists a. reflexivity.
Qed.

Lemma get_index_negative_witness :
  1 <= 1 <= length (positional (mkSimple "prog" [] ∅ ["a"; "b"])) /\
  get_index (mkSimple "prog" [] ∅ ["a"; "b"]) (- Z.of_nat 1) =
    get_index (mkSimple "prog" [] ∅ ["a"; "b"])
      (Z.of_nat (length (positional (mkSimple "prog" [] ∅ ["a"; "b"])) - 1)).
Proof.
  assert (H : 1 <= 1 <= length (positional (mkSimple "prog" [] ∅ ["a"; "b"])))
    by (simpl; lia).
  split; [exact H|]. exact (proj1 (get_index_negative _ 1 H)).
Defined.

Lemma has_any_existsb (st : Simple) (names : list string) :
  has_any st names = existsb (fun name => has_flag st name || has_option st name) names.
Proof.
  induction names as [|n names IH]; [reflexivity|]. simpl.
  destruct (has_flag st n), (has_option st n); simpl; auto.
Qed.

Lemma has_all_forallb (st : Simple) (names : list string) :
  has_all st names = forallb (fun name => has_flag st name || has_option st name) names.
Proof.
  induction names as [|n names IH]; [reflexivity|]. simpl.
  destruct (has_flag st n), (has_option st n); simpl; auto.
Qed.

(** X: [has_any] and [has_all] split over concatenated name lists (an
    [or] and an [and] of the parts), and on a non-empty list [has_all]
    implies [has_any]. *)
Theorem has_any_has_all_app (st : Simple) (a b : list string) (name : string) :
  has_any st (a ++ b)%list = has_any st a || has_any st b /\
  has_all st (a ++ b)%list = has_all st a && has_all st b /\
  implb (has_all st (name :: a)) (has_any st (name :: a)) = true.
Proof.
  rewrite !has_any_existsb, !has_all_forallb, existsb_app, forallb_app.
  split; [reflexivity|]. split; [reflexivity|].
  simpl. destruct (has_flag st name || has_option st name); simpl;
    destruct (forallb (fun name => has_flag st name || has_option st name) a);
    reflexivity.
Qed.

Lemma insert_all_union (l : list (string * option string))
    (m : gmap string (option string)) :
  insert_all m l = insert_all ∅ l ∪ m.
Proof.
  revert m. induction l as [|[k w] l IH]; intros m.
  - unfold insert_all. simpl. rewrite (left_id_L ∅ (∪)). reflexivity.
  - change (insert_all m ((k, w) :: l)) with (insert_all (<[k := w]> m) l).
    change (insert_all ∅ ((k, w) :: l)) with (insert_all (<[k := w]> ∅) l).
    rewrite (IH (<[k := w]> m)), (IH (<[k := w]> ∅)).
    rewrite insert_empty, insert_union_singleton_l, (assoc_L (∪)). reflexivity.
Qed.

(** X: classifying [a ++ b] is classifying [a] and [b] separately and
    joining the results: flags and positionals concatenate, and the options
    of [b] take precedence over those of [a]. *)
Theorem init_app (cmd : string) (a b : list string) :
  exists sa sb sab,
    init (cmd :: a) = Some sa /\ init (cmd :: b) = Some sb /\
    init (cmd :: a ++ b)%list = Some sab /\
    get_flags sab = (get_flags sa ++ get_flags sb)%list /\
    get_positional sab = (get_positional sa ++ get_positional sb)%list /\
    get_options sab = get_options sb ∪ get_options sa.
Proof.
  do 3 eexists. split; [reflexivity|]. split; [reflexivity|]. split; [reflexivity|].
  unfold get_flags, get_positional, get_options.
  rewrite !fold_step_flags, !fold_step_positional, !fold_step_options. simpl.
  rewrite flat_map_app, List.filter_app. split; [reflexivity|]. split; [reflexivity|].
  unfold option_entries. rewrite flat_map_app. fold (option_entries a) (option_entries b).
  unfold insert_all at 1. rewrite fold_left_app. fold (insert_all ∅ (option_entries a)).
  fold (insert_all (insert_all ∅ (option_entries a)) (option_entries b)).
  apply insert_all_union.
Qed.

Lemma forallb_enumerate {A} (f : nat * A -> bool) (k : nat) (xs : list A) :
  (forall i x, xs !! i = Some x -> f (k + i, x) = true) ->
  forallb f (enumerate_from k xs) = true.
Proof.
  revert k. induction xs as [|x xs IH]; intros k H; simpl; [reflexivity|].
  pose proof (H 0 x eq_refl) as H0. rewrite Nat.add_0_r in H0. rewrite H0. simpl.
  apply IH. intros i y Hy. replace (S k + i) with (k + S i) by lia. apply H. exact Hy.
Qed.

(** X: every assertion of the self-test [check_arguments] passes when the
    positionals do not begin with ["-"], the flags are word characters and
    the option mapping (a dict, so with distinct names) has word-character
    names and values that are absent or non-empty without whitespace,
    whatever order the shuffles leave flags and names in. *)
Theorem check_arguments_passes (cmd : string) (positional_in : list string)
    (flags_in : list ascii) (options_in : list (string * option string)) :
  Forall (fun p => starts_with_dash p = false) positional_in ->
  Forall (fun c => is_word c = true) flags_in ->
  Forall option_entry_ok options_in ->
  NoDup (map fst options_in) ->
  check_arguments cmd positional_in flags_in options_in = true.
Proof.
  intros Hpos Hfl Hopts Hnd.
  assert (HP : fold_left step
                 (positional_in
                  ++ map (fun c => String "-" (String c EmptyString)) flags_in
                  ++ map (fun '(name, value) => option_token name value) options_in)%list
                 (mkSimple cmd [] ∅ []) =
               mkSimple cmd (map char_string flags_in) (insert_all ∅ options_in)
                        positional_in).
  { rewrite !fold_left_app, (fold_positional_tokens _ _ Hpos),
      (fold_flag_tokens _ _ Hfl), (fold_option_tokens _ _ Hopts).
    reflexivity. }
  unfold check_arguments, build_arguments, init. cbn [app]. rewrite HP.
  set (P := mkSimple cmd (map char_string flags_in) (insert_all ∅ options_in)
                     positional_in).
  assert (Hflag : forall c, In c flags_in -> has_flag P (char_string c) = true).
  { intros c Hc. apply has_flag_spec. apply in_map. exact Hc. }
  assert (Hopt : forall name value, In (name, value) options_in ->
                 options P !! name = Some value).
  { intros name value Hin. apply insert_all_lookup; [exact Hnd|]. left. exact Hin. }
  repeat (apply andb_true_intro; split).
  - apply String.eqb_refl.
  - apply forallb_enumerate. intros i x Hx. simpl.
    rewrite get_index_nat. change (positional P) with positional_in.
    rewrite Hx. apply String.eqb_refl.
  - apply forallb_forall. intros c Hc. simpl.
    unfold get_flag. rewrite (Hflag c Hc). reflexivity.
  - apply forallb_forall. intros [name value] Hin.
    unfold has_option, get_option, res_bind. rewrite (Hopt name value Hin). simpl.
    apply bool_decide_eq_true_2. reflexivity.
  - rewrite has_all_forallb. apply forallb_forall. intros x Hx.
    apply in_map_iff in Hx as [c [<- Hc]]. rewrite (Hflag c Hc). reflexivity.
  - rewrite has_all_forallb. apply forallb_forall. intros x Hx.
    apply in_map_iff in Hx as [[name value] [Heq Hin]]. simpl in Heq. subst x.
    unfold has_option. rewrite (Hopt name value Hin), orb_true_r. reflexivity.
Qed.

(** The self-test's [options] case: [check_arguments("options", [], [],
    {"first": '1.2', "second": "!?", "third": None})]. *)
Lemma check_arguments_passes_witness :
  Forall (fun p => starts_with_dash p = false) [] /\
  Forall (fun c => is_word c = true) [] /\
  Forall option_entry_ok [("first", Some "1.2"); ("second", Some "!?"); ("third", None)] /\
  NoDup (map fst [("first", Some "1.2"); ("second", Some "!?"); ("third", None)]) /\
  check_arguments "options" [] []
    [("first", Some "1.2"); ("second", Some "!?"); ("third", None)] = true.
Proof.
  assert (H1 : Forall (fun p => starts_with_dash p = false) []) by constructor.
  assert (H2 : Forall (fun c => is_word c = true) []) by constructor.
  assert (H3 : Forall option_entry_ok
                 [("first", Some "1.2"); ("second", Some "!?"); ("third", None)]).
  { repeat constructor; simpl; repeat split; discriminate. }
  assert (H4 : NoDup (map fst [("first", Some "1.2"); ("second", Some "!?");
                                ("third", None)])).
  { apply (bool_decide_unpack _). vm_compute. exact I. }
  split; [exact H1|]. split; [exact H2|]. split; [exact H3|]. split; [exact H4|].
  exact (check_arguments_passes "options" [] [] _ H1 H2 H3 H4).
Defined.
